(** * Ingress controller utilities (core/pkg/ingress/controller/util.go)

    A shallow embedding of the decision helpers of the ingress controller:
    hostname matching against certificate names, ingress-class selection,
    replica ownership and the merge of extracted annotations into a
    location.  Go strings are byte strings ([string]); Go maps are finite
    maps ([gmap]); a nil map that the code tells apart from an empty one is
    an [option]. *)

From Stdlib Require Import String Ascii Bool Arith Lia.
From stdpp Require Import gmap strings list fin_maps.

(** ** The part of Go's [strings] package that util.go calls *)

Module GoStrings.

Definition len (s : string) : nat := String.length s.

(** [s[lo:hi]] for [lo <= hi <= len s]. *)
Definition slice (s : string) (lo hi : nat) : string :=
  String.substring lo (hi - lo) s.

(** [strings.HasPrefix]: [len(s) >= len(prefix) && s[0:len(prefix)] == prefix]. *)
Definition HasPrefix (s prefix : string) : bool :=
  (len prefix <=? len s) && String.eqb (slice s 0 (len prefix)) prefix.

(** [strings.HasSuffix]: [len(s) >= len(suffix) && s[len(s)-len(suffix):] == suffix]. *)
Definition HasSuffix (s suffix : string) : bool :=
  (len suffix <=? len s)
  && String.eqb (slice s (len s - len suffix) (len s)) suffix.

(** [strings.TrimSuffix]: drop the suffix once if it is there. *)
Definition TrimSuffix (s suffix : string) : string :=
  if HasSuffix s suffix then slice s 0 (len s - len suffix) else s.

(** [strings.Split(s, sep)] for a separator of one byte, the only way
    util.go calls it: the pieces between the separators, so one more
    piece than there are separators, and [[""]] for the empty string. *)
Fixpoint Split (s : string) (sep : ascii) : list string :=
  match s with
  | EmptyString => [EmptyString]
  | String c rest =>
      if Ascii.eqb c sep then EmptyString :: Split rest sep
      else match Split rest sep with
           | piece :: pieces => String c piece :: pieces
           | [] => [String c EmptyString]
           end
  end.

(** [strings.Join] for a one-byte separator; used to state what [Split] is. *)
Fixpoint Join (pieces : list string) (sep : ascii) : string :=
  match pieces with
  | [] => EmptyString
  | [piece] => piece
  | piece :: more => String.append piece (String sep (Join more sep))
  end.

End GoStrings.

(** ** Hostname matching *)

Module Hostname.
Import GoStrings.

Definition dot : ascii := "."%char.

(** The body of the [range patternParts] loop, from index [i] on.
    [None] is the index-out-of-range panic of [hostParts[i]]. *)
Fixpoint matchParts (i : nat) (patternParts hostParts : list string)
  : option bool :=
  match patternParts with
  | [] => Some true
  | patternPart :: more =>
      if (i =? 0) && String.eqb patternPart "*" then
        matchParts (S i) more hostParts
      else
        match hostParts !! i with
        | None => None
        | Some hostPart =>
            if negb (String.eqb patternPart hostPart) then Some false
            else matchParts (S i) more hostParts
        end
  end.

Definition matchHostnames (pattern host : string) : option bool :=
  let host := TrimSuffix host "." in
  let pattern := TrimSuffix pattern "." in
  if (len pattern =? 0) || (len host =? 0) then Some false
  else
    let patternParts := Split pattern dot in
    let hostParts := Split host dot in
    if negb (length patternParts =? length hostParts) then Some false
    else matchParts 0 patternParts hostParts.

(** Modelled from the spec: the certificate type [ingress.SSLCert] is
    declared in core/pkg/ingress, outside this file; the spec gives it a
    collection of subject patterns, which [isHostValid] ranges over as
    [cert.CN]. *)
Record SSLCert := mkSSLCert { CN : list string }.

(** The [range cert.CN] loop. *)
Fixpoint anyMatches (cns : list string) (host : string) : option bool :=
  match cns with
  | [] => Some false
  | cn :: more =>
      match matchHostnames cn host with
      | None => None
      | Some true => Some true
      | Some false => anyMatches more host
      end
  end.

(** [cert] is a pointer: [None] is nil. *)
Definition isHostValid (host : string) (cert : option SSLCert) : option bool :=
  match cert with
  | None => Some false
  | Some c => anyMatches (CN c) host
  end.

End Hostname.

(** ** Effects: the log, process exit and run-time panics *)

Module Effects.

(** A Go [error] value.  [ErrMissingAnnotations] is the sentinel of the
    controller's errors package that [errors.IsMissingAnnotations]
    recognises; every other error is [NewError]. *)
Inductive error : Type :=
| ErrMissingAnnotations
| NewError (msg : string).

Inductive severity : Type := Warning | Error | Fatal.

(** What a call does to the world besides returning. *)
Inductive event : Type :=
| Logged (sev : severity) (format : string) (err : error)
| PodDetailsRequested.

(** How a call ends: it returns, glog.Fatalf ends the process, or the Go
    run time panics. *)
Inductive outcome (A : Type) : Type :=
| Returned (a : A)
| Exited
| Panicked.
Arguments Returned {A} a.
Arguments Exited {A}.
Arguments Panicked {A}.

Definition Run (A : Type) : Type := (list event * outcome A)%type.

Definition trace {A} (r : Run A) : list event := r.1.
Definition result {A} (r : Run A) : outcome A := r.2.

#[global] Instance run_ret : MRet Run := λ A a, ([], Returned a).

#[global] Instance run_bind : MBind Run := λ A B k m,
  match m.2 with
  | Returned a => (m.1 ++ (k a).1, (k a).2)
  | Exited => (m.1, Exited)
  | Panicked => (m.1, Panicked)
  end.

Definition emit (ev : event) : Run unit := ([ev], Returned tt).

Definition Warningf (format : string) (err : error) : Run unit :=
  emit (Logged Warning format err).

Definition Errorf (format : string) (err : error) : Run unit :=
  emit (Logged Error format err).

(** [glog.Fatalf] writes the message and calls [os.Exit(255)]. *)
Definition Fatalf {A} (format : string) (err : error) : Run A :=
  ([Logged Fatal format err], Exited).

Definition panic {A} : Run A := ([], Panicked).

End Effects.

(** ** The controller's data and its collaborators *)

Module Controller.
Import GoStrings Effects.

Definition ingressLoadbalancerAnno : string :=
  "ingress.alpha.k8s.io/loadbalancer-name".

Definition DeniedKeyName : string := "Denied".

(** [extensions.Ingress], as far as util.go reads it: the annotations,
    a [map[string]string] that may be nil. *)
Record Ingress := mkIngress { Annotations : option (gmap string string) }.

(** Reading a Go map, nil or not: the zero value when the key is absent. *)
Definition index (m : gmap string string) (key : string) : string :=
  default EmptyString (m !! key).

(** The controller's [Configuration] is declared elsewhere in the package;
    these are the two fields of it that util.go reads. *)
Record Configuration := mkConfiguration {
  IngressClass : string;
  DefaultIngressClass : string
}.

(** The descriptor [k8s.GetPodDetails] returns; util.go reads its name. *)
Record PodInfo := mkPodInfo { Name : string }.

(** A value of type [interface{}], by dynamic type. *)
Inductive value : Type :=
| VNil
| VBool (b : bool)
| VInt (n : Z)
| VString (s : string)
| VError (e : error).

Inductive kind : Type := KNil | KBool | KInt | KString | KError.

Definition kindOf (v : value) : kind :=
  match v with
  | VNil => KNil
  | VBool _ => KBool
  | VInt _ => KInt
  | VString _ => KString
  | VError _ => KError
  end.

#[global] Instance kind_eq_dec : EqDecision kind.
Proof. solve_decision. Defined.

(** Modelled from the spec: the location type [ingress.Location] is
    declared in core/pkg/ingress, outside this file.  The spec gives it a
    denial reason (a Go [error], nil when the location is not denied), a
    rewrite field that holds a path, and further overridable fields, kept
    here by field name with their current value. *)
Record Location := mkLocation {
  Denied : option error;
  Rewrite : string;
  Others : gmap string value
}.

Definition setDenied (loc : Location) (d : option error) : Location :=
  {| Denied := d; Rewrite := Rewrite loc; Others := Others loc |}.

Definition setRewrite (loc : Location) (s : string) : Location :=
  {| Denied := Denied loc; Rewrite := s; Others := Others loc |}.

Definition setOther (loc : Location) (field : string) (v : value) : Location :=
  {| Denied := Denied loc; Rewrite := Rewrite loc;
     Others := <[field := v]> (Others loc) |}.

(** The annotation reader of the parser package and the key
    [ingressClassKey], both declared outside this file.  Like the Go
    function the reader returns a string and an error side by side. *)
Class AnnotationReader := {
  ingressClassKey : string;
  GetStringAnnotation : string → Ingress → string * option error
}.

(** Modelled from the spec: [errors.IsMissingAnnotations] is in
    core/pkg/ingress/errors, outside this file; it tells the failure
    "the annotation is absent" from every other one. *)
Definition IsMissingAnnotations (e : error) : bool :=
  match e with
  | ErrMissingAnnotations => true
  | NewError _ => false
  end.

(** The identity lookup [k8s.GetPodDetails]: a descriptor or an error. *)
Class PodIdentity := {
  Clientset : Type;
  GetPodDetails : Clientset → PodInfo + error
}.

(** [mergo.Map(dst, src)]: the merged destination and the error it
    returns, if any. *)
Class StructMerger := {
  Map : Location → gmap string value → Location * option error
}.

(** *** IsValidClass *)

Definition IsValidClass `{AnnotationReader}
    (ing : Ingress) (config : Configuration) : Run bool :=
  let currentIngClass := IngressClass config in
  let '(cc, err) := GetStringAnnotation ingressClassKey ing in
  _ ← match err with
      | Some e =>
          if negb (IsMissingAnnotations e)
          then Warningf "unexpected error reading ingress annotation: %v" e
          else mret tt
      | None => mret tt
      end;
  if (String.eqb cc "" && String.eqb currentIngClass "")
     || String.eqb currentIngClass (DefaultIngressClass config)
  then mret true
  else mret (String.eqb cc currentIngClass).

(** *** isAssignedToSelf *)

Definition callGetPodDetails `{PodIdentity} (client : Clientset)
  : Run (PodInfo + error) :=
  _ ← emit PodDetailsRequested; mret (GetPodDetails client).

Definition isAssignedToSelf `{PodIdentity}
    (ing : Ingress) (client : Clientset) : Run bool :=
  match Annotations ing with
  | None => mret false
  | Some annotations =>
      looked ← callGetPodDetails client;
      podInfo ← match looked with
                | inr err =>
                    Fatalf "unexpected error obtaining pod information: %v" err
                | inl info => mret info
                end;
      mret (HasPrefix (index annotations ingressLoadbalancerAnno)
                      (Name podInfo))
  end.

(** *** mergeLocationAnnotations *)

(** The type assertion [v.(error)] in its one-result form: it panics
    unless the dynamic type of [v] is an error. *)
Definition assertError (v : value) : Run error :=
  match v with
  | VError e => mret e
  | _ => panic
  end.

(** The location is updated in place and the map is shared with the
    caller, so a returning call hands both back. *)
Definition mergeLocationAnnotations `{StructMerger}
    (loc : Location) (anns : gmap string value)
  : Run (Location * gmap string value) :=
  loc ← match anns !! DeniedKeyName with
        | Some v => e ← assertError v; mret (setDenied loc (Some e))
        | None => mret loc
        end;
  let anns := delete DeniedKeyName anns in
  let '(loc, err) := Map loc anns in
  _ ← match err with
      | Some e =>
          Errorf "unexpected error merging extracted annotations in location type: %v" e
      | None => mret tt
      end;
  mret (loc, anns).

End Controller.

(** ** Collaborators as the spec describes them *)

Module Collaborators.
Import GoStrings Effects Controller.

(** Modelled from the spec: [parser.GetStringAnnotation] is in
    core/pkg/ingress/annotations/parser, outside this file.  The spec has
    it return the annotation's string value, and fail in a way that can be
    told apart when the annotation is simply absent; a resource without
    annotations has none to return.  The key the controller reads the
    class from, [ingressClassKey], is declared elsewhere in the package
    and is left open. *)
Definition readAnnotation (name : string) (ing : Ingress)
  : string * option error :=
  match Annotations ing with
  | None => (EmptyString, Some ErrMissingAnnotations)
  | Some annotations =>
      match annotations !! name with
      | Some v => (v, None)
      | None => (EmptyString, Some ErrMissingAnnotations)
      end
  end.

Definition specReader (key : string) : AnnotationReader :=
  {| ingressClassKey := key; GetStringAnnotation := readAnnotation |}.

(** A reader whose every read fails for a reason other than absence. *)
Definition brokenReader (key : string) : AnnotationReader :=
  {| ingressClassKey := key;
     GetStringAnnotation := λ _ _, (EmptyString, Some (NewError "malformed")) |}.

(** An identity lookup with a fixed answer. *)
Definition fixedIdentity (answer : PodInfo + error) : PodIdentity :=
  {| Clientset := unit; GetPodDetails := λ _, answer |}.

(** Modelled from the spec: [mergo.Map] is a library outside this file.
    The spec has it merge the keys of the map into the location's fields
    by name: a field present in both is overwritten with the map's value,
    a field absent from the map is left untouched, and a key that names no
    field or carries a value of the wrong type is a merge failure, which
    skips that key and is reported.  [assignField] is one such assignment;
    the denial field takes an error or nil, the rewrite field a string, and
    any other field a value of the kind it holds. *)
Definition assignField (field : string) (v : value) (loc : Location)
  : Location + error :=
  if String.eqb field "Denied" then
    match v with
    | VError e => inl (setDenied loc (Some e))
    | VNil => inl (setDenied loc None)
    | _ => inr (NewError "type mismatch")
    end
  else if String.eqb field "Rewrite" then
    match v with
    | VString s => inl (setRewrite loc s)
    | _ => inr (NewError "type mismatch")
    end
  else
    match Others loc !! field with
    | None => inr (NewError "unknown field")
    | Some old =>
        if decide (kindOf old = kindOf v) then inl (setOther loc field v)
        else inr (NewError "type mismatch")
    end.

(** Modelled from the spec: one step of the merge, for one key of the map;
    a failure leaves the location as it is and is remembered. *)
Definition mergeKey (field : string) (v : value)
    (acc : Location * option error) : Location * option error :=
  match assignField field v acc.1 with
  | inl loc => (loc, acc.2)
  | inr err => (acc.1, Some err)
  end.

(** Modelled from the spec: the merge of every key of the map, and the
    failure it reports, if any. *)
Definition mergoMap (loc : Location) (anns : gmap string value)
  : Location * option error :=
  map_fold mergeKey (loc, None) anns.

Definition specMerger : StructMerger := {| Map := mergoMap |}.

(** A field of the location read by name, as a value. *)
Definition field (loc : Location) (name : string) : option value :=
  if String.eqb name "Denied" then
    Some (match Denied loc with Some e => VError e | None => VNil end)
  else if String.eqb name "Rewrite" then Some (VString (Rewrite loc))
  else Others loc !! name.

(** Whether the field of that name exists and can hold the value. *)
Definition assignable (loc : Location) (name : string) (v : value) : bool :=
  match assignField name v loc with
  | inl _ => true
  | inr _ => false
  end.

(** Modelled from the spec: what the spec says of the generic merge, as a
    contract on any merge function.  A field present in both the map and
    the location is overwritten with the map's value, a field absent from
    the map is left untouched, and a key whose value does not fit is
    skipped. *)
Record MergesByName (merger : StructMerger) : Prop := {
  merge_overwrites : ∀ loc m name v,
    m !! name = Some v → assignable loc name v = true →
    field (Map loc m).1 name = Some v;
  merge_keeps : ∀ loc m name,
    m !! name = None → field (Map loc m).1 name = field loc name;
  merge_skips : ∀ loc m name v,
    m !! name = Some v → assignable loc name v = false →
    field (Map loc m).1 name = field loc name
}.

End Collaborators.

(** * Properties *)

Import GoStrings Hostname Effects Controller Collaborators.

(** ** Strings *)

Lemma len_append (p r : string) : len (String.append p r) = len p + len r.
Proof. unfold len. induction p as [|c p IH]; simpl; [done | by rewrite IH]. Qed.

Lemma substring_all (s : string) : String.substring 0 (len s) s = s.
Proof. unfold len. induction s as [|c s IH]; simpl; [done | by rewrite IH]. Qed.

Lemma substring_head (p r : string) :
  String.substring 0 (len p) (String.append p r) = p.
Proof.
  unfold len. induction p as [|c p IH]; simpl.
  - by destruct r.
  - by rewrite IH.
Qed.

Lemma substring_tail (p r : string) :
  String.substring (len p) (len r) (String.append p r) = r.
Proof.
  unfold len. induction p as [|c p IH]; simpl; [apply substring_all | exact IH].
Qed.

Lemma substring_split (s : string) (n : nat) :
  n ≤ len s →
  s = String.append (String.substring 0 n s) (String.substring n (len s - n) s).
Proof.
  unfold len. revert n. induction s as [|c s IH]; intros [|n] Hn; simpl in *.
  - done.
  - lia.
  - change (String c s = String c (String.substring 0 (String.length s) s)).
    f_equal. symmetry. apply (substring_all s).
  - change (String c s = String c (String.append (String.substring 0 n s)
              (String.substring n (String.length s - n) s))).
    f_equal. apply IH. lia.
Qed.

Lemma HasPrefix_true (s prefix : string) :
  HasPrefix s prefix = true ↔ ∃ rest, s = String.append prefix rest.
Proof.
  unfold HasPrefix, slice. rewrite andb_true_iff, Nat.leb_le, String.eqb_eq.
  rewrite Nat.sub_0_r. split.
  - intros [Hlen Heq]. exists (String.substring (len prefix) (len s - len prefix) s).
    rewrite <- Heq at 1. by apply substring_split.
  - intros [rest ->]. rewrite len_append, substring_head. split; [lia | done].
Qed.

Lemma HasSuffix_true (s suffix : string) :
  HasSuffix s suffix = true ↔ ∃ front, s = String.append front suffix.
Proof.
  unfold HasSuffix, slice. rewrite andb_true_iff, Nat.leb_le, String.eqb_eq. split.
  - intros [Hlen Heq]. exists (String.substring 0 (len s - len suffix) s).
    rewrite <- Heq at 2. apply substring_split. lia.
  - intros [front ->]. rewrite len_append.
    replace (len front + len suffix - len suffix) with (len front) by lia.
    replace (len front + len suffix - len front) with (len suffix) by lia.
    rewrite substring_tail. split; [lia | done].
Qed.

Lemma TrimSuffix_present (front suffix : string) :
  TrimSuffix (String.append front suffix) suffix = front.
Proof.
  unfold TrimSuffix.
  destruct (HasSuffix (String.append front suffix) suffix) eqn:E.
  - unfold slice. rewrite len_append, Nat.sub_0_r.
    replace (len front + len suffix - len suffix) with (len front) by lia.
    apply substring_head.
  - assert (HasSuffix (String.append front suffix) suffix = true) as E'
      by (apply HasSuffix_true; eauto).
    congruence.
Qed.

Lemma TrimSuffix_absent (s suffix : string) :
  (∀ front, s ≠ String.append front suffix) → TrimSuffix s suffix = s.
Proof.
  intros Hno. unfold TrimSuffix. destruct (HasSuffix s suffix) eqn:E; [|done].
  apply HasSuffix_true in E as [front ->]. by destruct (Hno front).
Qed.

Lemma Split_nonempty (s : string) (sep : ascii) : Split s sep ≠ [].
Proof. destruct s as [|c s]; simpl; [done|]. by repeat case_match. Qed.

(** [Split] cuts at the separators and nowhere else: joining the pieces
    with the separator gives the string back. *)
Lemma Join_Split (s : string) (sep : ascii) : Join (Split s sep) sep = s.
Proof.
  induction s as [|c s IH]; simpl; [done|].
  pose proof (Split_nonempty s sep) as Hne.
  destruct (Ascii.eqb c sep) eqn:Hc.
  - apply Ascii.eqb_eq in Hc as ->.
    destruct (Split s sep) as [|piece pieces] eqn:E; [done|].
    change (String sep (Join (piece :: pieces) sep) = String sep s).
    by rewrite IH.
  - destruct (Split s sep) as [|piece pieces] eqn:E; [done|].
    destruct pieces as [|next pieces]; simpl in *; by rewrite <- IH.
Qed.

(** ** Hostname matching *)

Lemma matchParts_total (i : nat) (patternParts hostParts : list string) :
  i + length patternParts ≤ length hostParts →
  is_Some (matchParts i patternParts hostParts).
Proof.
  revert i. induction patternParts as [|p more IH]; intros i Hlen; simpl in *.
  - by eexists.
  - destruct ((i =? 0) && String.eqb p "*"); [apply IH; lia|].
    destruct (lookup_lt_is_Some_2 hostParts i) as [hp ->]; [lia|].
    destruct (negb (String.eqb p hp)); [by eexists | apply IH; lia].
Qed.

Lemma matchParts_true (i : nat) (patternParts hostParts : list string) :
  matchParts i patternParts hostParts = Some true ↔
  ∀ j p, patternParts !! j = Some p →
         (i + j = 0 ∧ p = "*"%string) ∨ hostParts !! (i + j) = Some p.
Proof.
  revert i. induction patternParts as [|p more IH]; intros i; simpl.
  - split; [intros _ j q Hj; by rewrite lookup_nil in Hj | done].
  - destruct ((i =? 0) && String.eqb p "*") eqn:Hstar.
    + apply andb_true_iff in Hstar as [Hi Hp].
      apply Nat.eqb_eq in Hi as ->. apply String.eqb_eq in Hp as ->.
      rewrite IH. split.
      * intros Hall [|j] q Hj; simpl in *.
        -- left. split; [done | congruence].
        -- right. apply Hall in Hj as [[? _]|Hj]; [lia | done].
      * intros Hall j q Hj. right.
        destruct (Hall (S j) q Hj) as [[? _]|Hq]; [lia|].
        by replace (1 + j) with (0 + S j) by lia.
    + destruct (hostParts !! i) as [hp|] eqn:Hhp.
      * destruct (String.eqb p hp) eqn:Hp; simpl.
        -- apply String.eqb_eq in Hp as ->. rewrite IH. split.
           ++ intros Hall [|j] q Hj; simpl in *.
              ** right. rewrite Nat.add_0_r. congruence.
              ** destruct (Hall j q Hj) as [[? _]|Hq]; [lia|].
                 right. by replace (i + S j) with (S i + j) by lia.
           ++ intros Hall j q Hj.
              destruct (Hall (S j) q Hj) as [[? _]|Hq]; [lia|].
              right. by replace (S i + j) with (i + S j) by lia.
        -- split; [done|]. intros Hall.
           destruct (Hall 0 p eq_refl) as [[Hi ->]|Hq].
           ++ replace i with 0 in Hstar by lia. done.
           ++ rewrite Nat.add_0_r, Hhp in Hq. injection Hq as ->.
              by rewrite String.eqb_refl in Hp.
      * split; [done|]. intros Hall.
        destruct (Hall 0 p eq_refl) as [[Hi ->]|Hq].
        -- replace i with 0 in Hstar by lia. done.
        -- rewrite Nat.add_0_r, Hhp in Hq. done.
Qed.

Lemma len_zero (s : string) : (len s =? 0) = true ↔ s = EmptyString.
Proof. rewrite Nat.eqb_eq. destruct s; simpl; split; intros; done. Qed.

Lemma matchHostnames_total (pattern host : string) :
  is_Some (matchHostnames pattern host).
Proof.
  unfold matchHostnames.
  destruct (_ || _); [by eexists|].
  destruct (length _ =? length _) eqn:Hlen; simpl; [|by eexists].
  apply Nat.eqb_eq in Hlen. apply matchParts_total. simpl. lia.
Qed.

(** C3: [matchHostnames] strips one trailing dot from each operand, says no
    when either is then empty or the label counts differ, and otherwise
    says yes exactly when the labels agree position by position, a "*" in
    position 0 of the pattern agreeing with anything. *)
Theorem matchHostnames_labels :
  (∀ s, TrimSuffix (String.append s ".") "." = s) ∧
  (∀ s, (∀ front, s ≠ String.append front ".") → TrimSuffix s "." = s) ∧
  (∀ pattern host,
     let p := TrimSuffix pattern "." in
     let h := TrimSuffix host "." in
     (∃ b, matchHostnames pattern host = Some b) ∧
     (matchHostnames pattern host = Some true ↔
        p ≠ EmptyString ∧ h ≠ EmptyString ∧
        length (Split p dot) = length (Split h dot) ∧
        ∀ i pl hl, Split p dot !! i = Some pl → Split h dot !! i = Some hl →
                   (i = 0 ∧ pl = "*"%string) ∨ pl = hl)) ∧
  matchHostnames "*.example.com" "foo.example.com" = Some true ∧
  matchHostnames "*.example.com" "example.com" = Some false ∧
  matchHostnames "*.example.com" "a.foo.example.com" = Some false ∧
  matchHostnames "a.b." "a.b" = Some true.
Proof.
  split; [intros s; apply TrimSuffix_present|].
  split; [intros s; apply TrimSuffix_absent|].
  split; [|by vm_compute].
  intros pattern host p h. split; [apply matchHostnames_total|].
  unfold matchHostnames. fold p h.
  destruct (len p =? 0) eqn:Hp; simpl.
  { apply len_zero in Hp. split; [done | by intros [? _]]. }
  destruct (len h =? 0) eqn:Hh; simpl.
  { apply len_zero in Hh. split; [done | by intros (_ & ? & _)]. }
  assert (p ≠ EmptyString) as Hp' by (intros E; apply len_zero in E; congruence).
  assert (h ≠ EmptyString) as Hh' by (intros E; apply len_zero in E; congruence).
  destruct (length (Split p dot) =? length (Split h dot)) eqn:Hlen; simpl.
  - apply Nat.eqb_eq in Hlen. rewrite matchParts_true. split.
    + intros Hall. repeat split; try done.
      intros i pl hl Hpl Hhl. destruct (Hall i pl Hpl) as [[Hi ->]|Hq].
      * left. split; [lia | done].
      * simpl in Hq. right. congruence.
    + intros (_ & _ & _ & Hall) j pl Hpl. simpl.
      destruct (lookup_lt_is_Some_2 (Split h dot) j) as [hl Hhl].
      { rewrite <- Hlen. by eapply lookup_lt_Some. }
      destruct (Hall j pl hl Hpl Hhl) as [?| ->]; [by left | by right].
  - apply Nat.eqb_neq in Hlen. split; [done | by intros (_ & _ & ? & _)].
Qed.

(** ** Certificate validity for a host *)

Lemma anyMatches_total (cns : list string) (host : string) :
  is_Some (anyMatches cns host).
Proof.
  induction cns as [|cn more IH]; simpl; [by eexists|].
  destruct (matchHostnames_total cn host) as [[] ->]; [by eexists | done].
Qed.

Lemma anyMatches_true (cns : list string) (host : string) :
  anyMatches cns host = Some true ↔
  ∃ cn, cn ∈ cns ∧ matchHostnames cn host = Some true.
Proof.
  induction cns as [|cn more IH]; simpl.
  - split; [done | intros (? & Hin & _); by apply elem_of_nil in Hin].
  - destruct (matchHostnames_total cn host) as [[] Hm]; rewrite Hm.
    + split; [|done]. intros _. exists cn. split; [left | done].
    + rewrite IH. split.
      * intros (c & Hin & Hc). exists c. split; [by right | done].
      * intros (c & Hin & Hc). apply elem_of_cons in Hin as [->|Hin].
        -- congruence.
        -- by exists c.
Qed.

(** C6: without a certificate no host is valid; with one, a host is valid
    exactly when some pattern of the certificate, whichever it is, matches
    it. *)
Theorem isHostValid_any_pattern (host : string) :
  isHostValid host None = Some false ∧
  ∀ cert,
    (∃ b, isHostValid host (Some cert) = Some b) ∧
    (isHostValid host (Some cert) = Some true ↔
       ∃ cn, cn ∈ CN cert ∧ matchHostnames cn host = Some true).
Proof.
  split; [done|]. intros cert. simpl. split.
  - apply anyMatches_total.
  - apply anyMatches_true.
Qed.

(** ** Running the effects *)

Lemma bind_returned {A B} (k : A → Run B) (t : list event) (a : A) :
  ((t, Returned a) : Run A) ≫= k = (t ++ trace (k a), result (k a)).
Proof. reflexivity. Qed.

Lemma bind_ret {A B} (k : A → Run B) (a : A) : mret a ≫= k = k a.
Proof. unfold mret, run_ret. rewrite bind_returned. simpl. by destruct (k a). Qed.

Lemma bind_exited {A B} (k : A → Run B) (t : list event) :
  ((t, Exited) : Run A) ≫= k = (t, Exited).
Proof. reflexivity. Qed.

Lemma bind_panicked {A B} (k : A → Run B) (t : list event) :
  ((t, Panicked) : Run A) ≫= k = (t, Panicked).
Proof. reflexivity. Qed.

Ltac run_step :=
  rewrite ?bind_ret, ?bind_returned, ?bind_exited, ?bind_panicked;
  unfold trace, result; simpl.

(** ** Class selection *)

(** Whatever the reader returns, the decision is the three-way test on the
    string it hands back, and the call returns. *)
Lemma IsValidClass_decision `{AnnotationReader} (ing : Ingress) (config : Configuration) :
  result (IsValidClass ing config) =
  Returned
    ((String.eqb (GetStringAnnotation ingressClassKey ing).1 ""
      && String.eqb (IngressClass config) "")
     || String.eqb (IngressClass config) (DefaultIngressClass config)
     || String.eqb (GetStringAnnotation ingressClassKey ing).1 (IngressClass config)).
Proof.
  unfold IsValidClass.
  destruct (GetStringAnnotation ingressClassKey ing) as [cc [e|]]; simpl.
  - destruct (IsMissingAnnotations e); simpl; unfold Warningf, emit; run_step;
      by repeat (case_match; simpl in *; try done).
  - run_step. by repeat (case_match; simpl in *; try done).
Qed.

Lemma three_way_test (cc current dflt : string) :
  (String.eqb cc "" && String.eqb current "") || String.eqb current dflt
  || String.eqb cc current = true ↔
  (cc = EmptyString ∧ current = EmptyString) ∨ current = dflt ∨ cc = current.
Proof.
  rewrite !orb_true_iff, andb_true_iff, !String.eqb_eq. tauto.
Qed.

(** C2: [IsValidClass] says yes exactly when the resource's class (empty
    when the annotation is absent) and the configured class are both empty,
    or the configured class is the default class, or the two classes are
    equal; for any reader this is the test on the string read, and with
    the reader of the spec that string is the annotation's value. *)
Theorem IsValidClass_iff :
  (∀ (reader : AnnotationReader) ing config,
     let cc := (GetStringAnnotation ingressClassKey ing).1 in
     ∃ b, result (IsValidClass ing config) = Returned b ∧
          (b = true ↔
             (cc = EmptyString ∧ IngressClass config = EmptyString)
             ∨ IngressClass config = DefaultIngressClass config
             ∨ cc = IngressClass config)) ∧
  (∀ key ing config,
     let cc := match Annotations ing with
               | Some annotations => index annotations key
               | None => EmptyString
               end in
     ∃ b, result (IsValidClass (H := specReader key) ing config) = Returned b ∧
          (b = true ↔
             (cc = EmptyString ∧ IngressClass config = EmptyString)
             ∨ IngressClass config = DefaultIngressClass config
             ∨ cc = IngressClass config)) ∧
  (∀ key,
     result (IsValidClass (H := specReader key)
               (mkIngress (Some {[ key := "nginx"%string ]}))
               (mkConfiguration "haproxy" "other")) = Returned false).
Proof.
  split; [|split].
  - intros reader ing config cc. eexists. split; [apply IsValidClass_decision|].
    apply three_way_test.
  - intros key ing config cc. eexists. split; [apply IsValidClass_decision|].
    rewrite three_way_test.
    replace (GetStringAnnotation ingressClassKey ing).1 with cc; [done|].
    subst cc. simpl. unfold readAnnotation, index.
    destruct (Annotations ing) as [annotations|]; [|done].
    by destruct (annotations !! key).
  - intros key. rewrite IsValidClass_decision. simpl.
    unfold readAnnotation. simpl. by rewrite lookup_singleton_eq.
Qed.

(** ** Ownership *)

Lemma isAssignedToSelf_nil `{PodIdentity} (ing : Ingress) (client : Clientset) :
  Annotations ing = None → isAssignedToSelf ing client = ([], Returned false).
Proof. intros Hnil. unfold isAssignedToSelf. by rewrite Hnil. Qed.

Lemma isAssignedToSelf_found `{PodIdentity}
    (ing : Ingress) (client : Clientset) annotations podInfo :
  Annotations ing = Some annotations →
  GetPodDetails client = inl podInfo →
  isAssignedToSelf ing client =
  ([PodDetailsRequested],
   Returned (HasPrefix (index annotations ingressLoadbalancerAnno) (Name podInfo))).
Proof.
  intros Hann Hpod. unfold isAssignedToSelf, callGetPodDetails, emit.
  rewrite Hann, Hpod. by run_step.
Qed.

Lemma isAssignedToSelf_lookup_failed `{PodIdentity}
    (ing : Ingress) (client : Clientset) annotations err :
  Annotations ing = Some annotations →
  GetPodDetails client = inr err →
  isAssignedToSelf ing client =
  ([PodDetailsRequested;
    Logged Fatal "unexpected error obtaining pod information: %v" err],
   Exited).
Proof.
  intros Hann Hpod. unfold isAssignedToSelf, callGetPodDetails, emit, Fatalf.
  rewrite Hann, Hpod. by run_step.
Qed.

Lemma HasPrefix_of_empty (prefix : string) :
  HasPrefix EmptyString prefix = true ↔ prefix = EmptyString.
Proof.
  rewrite HasPrefix_true. split.
  - intros [rest Hrest]. by destruct prefix.
  - intros ->. by exists EmptyString.
Qed.

(** C5, as the code has it: a resource whose annotation map is nil is not
    assigned to this replica, and the identity lookup is not made. *)
Theorem isAssignedToSelf_nil_annotations
    (identity : PodIdentity) (ing : Ingress) (client : Clientset) :
  Annotations ing = None →
  isAssignedToSelf ing client = ([], Returned false).
Proof. apply isAssignedToSelf_nil. Qed.

Lemma isAssignedToSelf_nil_annotations_witness :
  Annotations (mkIngress None) = None ∧
  isAssignedToSelf (H := fixedIdentity (inr (NewError "no pod")))
    (mkIngress None) tt = ([], Returned false).
Proof.
  split; [reflexivity|].
  apply (isAssignedToSelf_nil_annotations
           (fixedIdentity (inr (NewError "no pod"))) (mkIngress None) tt).
  reflexivity.
Defined.

(** C5 fails for a map that is empty but not nil: the guard tests for nil
    only, so the lookup is made, and when it fails the process exits
    instead of the call returning false. *)
Lemma isAssignedToSelf_empty_map_looks_up :
  isAssignedToSelf (H := fixedIdentity (inl (mkPodInfo "ingress-0")))
    (mkIngress (Some ∅)) tt = ([PodDetailsRequested], Returned false)
  ∧ isAssignedToSelf (H := fixedIdentity (inr (NewError "no pod")))
      (mkIngress (Some ∅)) tt
    = ([PodDetailsRequested;
        Logged Fatal "unexpected error obtaining pod information: %v"
          (NewError "no pod")], Exited)
  ∧ ¬ (∀ (identity : PodIdentity) ing client,
         Annotations ing = None ∨ Annotations ing = Some ∅ →
         isAssignedToSelf ing client = ([], Returned false)).
Proof.
  split; [reflexivity|]. split; [reflexivity|].
  intros Hclaim.
  specialize (Hclaim (fixedIdentity (inl (mkPodInfo "ingress-0")))
                (mkIngress (Some ∅)) tt (or_intror eq_refl)).
  discriminate Hclaim.
Qed.

(** C7: with annotations present and the lookup answering, the resource is
    assigned to this replica exactly when the value its annotation map
    holds under the load-balancer key (the empty string when the key is
    absent) starts with the replica's name. *)
Theorem isAssignedToSelf_prefix
    (identity : PodIdentity) (ing : Ingress) (client : Clientset)
    (annotations : gmap string string) (podInfo : PodInfo) :
  Annotations ing = Some annotations →
  GetPodDetails client = inl podInfo →
  let held := match annotations !! ingressLoadbalancerAnno with
              | Some v => v
              | None => EmptyString
              end in
  ∃ b, isAssignedToSelf ing client = ([PodDetailsRequested], Returned b) ∧
       (b = true ↔ ∃ rest, held = String.append (Name podInfo) rest).
Proof.
  intros Hann Hpod held. rewrite (isAssignedToSelf_found _ _ _ _ Hann Hpod).
  eexists. split; [reflexivity|]. rewrite HasPrefix_true.
  subst held. unfold index. by destruct (annotations !! ingressLoadbalancerAnno).
Qed.

Lemma isAssignedToSelf_prefix_witness :
  let identity := fixedIdentity (inl (mkPodInfo "ingress-0")) in
  let mine : gmap string string :=
    {[ ingressLoadbalancerAnno := "ingress-0-lb"%string ]} in
  let other : gmap string string :=
    {[ ingressLoadbalancerAnno := "ingress-1-lb"%string ]} in
  isAssignedToSelf (H := identity) (mkIngress (Some mine)) tt
  = ([PodDetailsRequested], Returned true)
  ∧ isAssignedToSelf (H := identity) (mkIngress (Some other)) tt
    = ([PodDetailsRequested], Returned false).
Proof.
  intros identity mine other. split.
  - destruct (isAssignedToSelf_prefix identity (mkIngress (Some mine)) tt mine
                (mkPodInfo "ingress-0") eq_refl eq_refl) as (b & -> & Hiff).
    do 2 f_equal. apply Hiff. exists "-lb"%string. reflexivity.
  - destruct (isAssignedToSelf_prefix identity (mkIngress (Some other)) tt other
                (mkPodInfo "ingress-0") eq_refl eq_refl) as (b & -> & Hiff).
    do 2 f_equal. destruct b; [|reflexivity].
    destruct (proj1 Hiff eq_refl) as [rest Hrest]. discriminate Hrest.
Defined.

(** C10: with annotations present but no load-balancer annotation among
    them, the value read is the empty string, so the resource is assigned
    to this replica exactly when the replica's name is empty. *)
Theorem isAssignedToSelf_annotation_absent
    (identity : PodIdentity) (ing : Ingress) (client : Clientset)
    (annotations : gmap string string) (podInfo : PodInfo) :
  Annotations ing = Some annotations →
  annotations !! ingressLoadbalancerAnno = None →
  GetPodDetails client = inl podInfo →
  index annotations ingressLoadbalancerAnno = EmptyString ∧
  ∃ b, result (isAssignedToSelf ing client) = Returned b ∧
       (b = true ↔ Name podInfo = EmptyString) ∧
       (Name podInfo ≠ EmptyString → b = false).
Proof.
  intros Hann Habsent Hpod. rewrite (isAssignedToSelf_found _ _ _ _ Hann Hpod).
  assert (index annotations ingressLoadbalancerAnno = EmptyString) as ->
    by (unfold index; by rewrite Habsent).
  split; [done|]. eexists. split; [reflexivity|].
  pose proof (HasPrefix_of_empty (Name podInfo)) as Hiff.
  split; [done|]. intros Hne.
  destruct (HasPrefix "" (Name podInfo)); [|done]. by destruct Hne; apply Hiff.
Qed.

Lemma isAssignedToSelf_annotation_absent_witness :
  index ({[ "other"%string := "x"%string ]} : gmap string string)
    ingressLoadbalancerAnno = EmptyString ∧
  ∃ b, result (isAssignedToSelf (H := fixedIdentity (inl (mkPodInfo "ingress-0")))
                 (mkIngress (Some {[ "other"%string := "x"%string ]})) tt)
       = Returned b ∧
       (b = true ↔ Name (mkPodInfo "ingress-0") = EmptyString) ∧
       (Name (mkPodInfo "ingress-0") ≠ EmptyString → b = false).
Proof.
  apply (isAssignedToSelf_annotation_absent
           (fixedIdentity (inl (mkPodInfo "ingress-0")))
           (mkIngress (Some {[ "other"%string := "x"%string ]})) tt
           {[ "other"%string := "x"%string ]} (mkPodInfo "ingress-0"));
    reflexivity.
Defined.

(** ** Merging extracted annotations *)

(** The three ways a call can go, for any merge function. *)
Lemma mergeLocationAnnotations_absent `{StructMerger}
    (loc : Location) (anns : gmap string value) :
  anns !! DeniedKeyName = None →
  mergeLocationAnnotations loc anns =
  (match (Map loc (delete DeniedKeyName anns)).2 with
   | Some e => [Logged Error
                  "unexpected error merging extracted annotations in location type: %v" e]
   | None => []
   end,
   Returned ((Map loc (delete DeniedKeyName anns)).1, delete DeniedKeyName anns)).
Proof.
  intros Habsent. unfold mergeLocationAnnotations. rewrite Habsent. run_step.
  destruct (Map loc (delete DeniedKeyName anns)) as [loc' [e|]];
    unfold Errorf, emit; by run_step.
Qed.

Lemma mergeLocationAnnotations_denied `{StructMerger}
    (loc : Location) (anns : gmap string value) (e : error) :
  anns !! DeniedKeyName = Some (VError e) →
  mergeLocationAnnotations loc anns =
  (match (Map (setDenied loc (Some e)) (delete DeniedKeyName anns)).2 with
   | Some e' => [Logged Error
                   "unexpected error merging extracted annotations in location type: %v" e']
   | None => []
   end,
   Returned ((Map (setDenied loc (Some e)) (delete DeniedKeyName anns)).1,
             delete DeniedKeyName anns)).
Proof.
  intros Hden. unfold mergeLocationAnnotations. rewrite Hden. simpl. run_step.
  destruct (Map (setDenied loc (Some e)) (delete DeniedKeyName anns)) as [loc' [e'|]];
    unfold Errorf, emit; by run_step.
Qed.

Lemma mergeLocationAnnotations_panics `{StructMerger}
    (loc : Location) (anns : gmap string value) (v : value) :
  anns !! DeniedKeyName = Some v →
  (∀ e, v ≠ VError e) →
  mergeLocationAnnotations loc anns = ([], Panicked).
Proof.
  intros Hden Hnot. unfold mergeLocationAnnotations. rewrite Hden.
  destruct v as [| | | |e]; try by run_step. by destruct (Hnot e).
Qed.

(** C9: the cast of the "Denied" entry is unchecked.  When the key is
    present the call avoids a panic exactly when the stored value is an
    error; any other value panics before anything is logged or merged. *)
Theorem mergeLocationAnnotations_unchecked_cast
    (merger : StructMerger) (loc : Location) (anns : gmap string value)
    (v : value) :
  anns !! DeniedKeyName = Some v →
  (result (mergeLocationAnnotations loc anns) ≠ Panicked ↔ ∃ e, v = VError e) ∧
  ((∀ e, v ≠ VError e) → mergeLocationAnnotations loc anns = ([], Panicked)) ∧
  mergeLocationAnnotations loc (<[DeniedKeyName := VString "forbidden"]> anns)
  = ([], Panicked).
Proof.
  intros Hden. split; [|split].
  - split.
    + intros Hsafe. destruct v as [| | | |e]; [..|by eexists];
        destruct Hsafe;
        by rewrite (mergeLocationAnnotations_panics loc anns _ Hden).
    + intros [e ->]. by rewrite (mergeLocationAnnotations_denied loc anns e Hden).
  - apply mergeLocationAnnotations_panics, Hden.
  - apply (mergeLocationAnnotations_panics _ _ (VString "forbidden"));
      [apply lookup_insert_eq | done].
Qed.

Lemma mergeLocationAnnotations_unchecked_cast_witness :
  (result (mergeLocationAnnotations (H := specMerger) (mkLocation None "/" ∅)
             {[ DeniedKeyName := VBool true ]}) ≠ Panicked
   ↔ ∃ e, VBool true = VError e) ∧
  ((∀ e, VBool true ≠ VError e) →
   mergeLocationAnnotations (H := specMerger) (mkLocation None "/" ∅)
     {[ DeniedKeyName := VBool true ]} = ([], Panicked)) ∧
  mergeLocationAnnotations (H := specMerger) (mkLocation None "/" ∅)
    (<[DeniedKeyName := VString "forbidden"]> {[ DeniedKeyName := VBool true ]})
  = ([], Panicked).
Proof.
  apply (mergeLocationAnnotations_unchecked_cast specMerger
           (mkLocation None "/" ∅) {[ DeniedKeyName := VBool true ]} (VBool true)).
  reflexivity.
Defined.

(** *** The merge of the spec meets its contract *)

Lemma field_Denied (loc : Location) :
  field loc "Denied" = Some (match Denied loc with Some e => VError e | None => VNil end).
Proof. reflexivity. Qed.

Lemma field_Rewrite (loc : Location) : field loc "Rewrite" = Some (VString (Rewrite loc)).
Proof. reflexivity. Qed.

Lemma field_other (loc : Location) (name : string) :
  name ≠ "Denied"%string → name ≠ "Rewrite"%string →
  field loc name = Others loc !! name.
Proof.
  intros Hd Hr. unfold field.
  apply String.eqb_neq in Hd as ->. by apply String.eqb_neq in Hr as ->.
Qed.

(** One assignment writes the field it names, if the value fits, and no
    other field. *)
Lemma assignField_same (name : string) (v : value) (loc loc' : Location) :
  assignField name v loc = inl loc' → field loc' name = Some v.
Proof.
  unfold assignField, field.
  destruct (String.eqb name "Denied") eqn:Ed.
  { destruct v; intros ?; simplify_eq; done. }
  destruct (String.eqb name "Rewrite") eqn:Er.
  { destruct v; intros ?; simplify_eq; done. }
  destruct (Others loc !! name) as [old|]; [|done].
  destruct (decide _); intros [= <-]. simpl. apply lookup_insert_eq.
Qed.

Lemma assignField_frame (name other : string) (v : value) (loc loc' : Location) :
  assignField name v loc = inl loc' → other ≠ name →
  field loc' other = field loc other.
Proof.
  unfold assignField. intros Hassign Hne.
  destruct (String.eqb name "Denied") eqn:Ed.
  { apply String.eqb_eq in Ed as ->. unfold field.
    apply String.eqb_neq in Hne as ->.
    destruct v; simplify_eq; done. }
  destruct (String.eqb name "Rewrite") eqn:Er.
  { apply String.eqb_eq in Er as ->. unfold field.
    destruct (String.eqb other "Denied"); [by destruct v; simplify_eq|].
    apply String.eqb_neq in Hne as ->.
    destruct v; simplify_eq; done. }
  destruct (Others loc !! name) as [old|]; [|done].
  destruct (decide _); [|done]. injection Hassign as <-. unfold field. simpl.
  destruct (String.eqb other "Denied"); [done|].
  destruct (String.eqb other "Rewrite"); [done|].
  by apply lookup_insert_ne.
Qed.

Lemma mergeKey_frame (name other : string) (v : value) acc :
  other ≠ name → field (mergeKey name v acc).1 other = field acc.1 other.
Proof.
  intros Hne. unfold mergeKey.
  destruct (assignField name v acc.1) as [loc'|err] eqn:E; simpl; [|done].
  by eapply assignField_frame.
Qed.

(** Field by field, the fold over the map does what one assignment of the
    key of that name does, whatever the order of the keys. *)
Lemma mergoMap_field (loc : Location) (anns : gmap string value) (name : string) :
  field (mergoMap loc anns).1 name =
  match anns !! name with
  | Some v => if assignable loc name v then Some v else field loc name
  | None => field loc name
  end.
Proof.
  unfold mergoMap.
  apply (map_fold_weak_ind (λ (r : Location * option error) (m : gmap string value),
    field r.1 name =
    match m !! name with
    | Some v => if assignable loc name v then Some v else field loc name
    | None => field loc name
    end)).
  - by rewrite lookup_empty.
  - intros key x m r Hfresh IH. destruct (decide (key = name)) as [->|Hne].
    + rewrite lookup_insert_eq. rewrite Hfresh in IH.
      unfold mergeKey, assignable.
      assert (∀ l1 l2, field l1 name = field l2 name →
                match assignField name x l1, assignField name x l2 with
                | inl _, inl _ | inr _, inr _ => True
                | _, _ => False
                end) as Hsame.
      { intros l1 l2. unfold field, assignField.
        destruct (String.eqb name "Denied"); [by destruct x|].
        destruct (String.eqb name "Rewrite"); [by destruct x|].
        intros ->. destruct (Others l2 !! name); [|done]. by destruct (decide _). }
      specialize (Hsame r.1 loc IH).
      destruct (assignField name x r.1) as [l1|e1] eqn:E1;
        destruct (assignField name x loc) as [l2|e2] eqn:E2; try done; simpl.
      by eapply assignField_same.
    + rewrite lookup_insert_ne by done. rewrite <- IH. by apply mergeKey_frame.
Qed.

Lemma mergoMap_by_name : MergesByName specMerger.
Proof.
  split; simpl.
  - intros loc m name v Hm Hfit. by rewrite mergoMap_field, Hm, Hfit.
  - intros loc m name Hm. by rewrite mergoMap_field, Hm.
  - intros loc m name v Hm Hfit. by rewrite mergoMap_field, Hm, Hfit.
Qed.

Lemma Denied_of_field (l1 l2 : Location) :
  field l1 "Denied" = field l2 "Denied" → Denied l1 = Denied l2.
Proof.
  rewrite !field_Denied. destruct (Denied l1), (Denied l2); intros ?; by simplify_eq.
Qed.

Lemma field_setDenied (loc : Location) (d : option error) (name : string) :
  name ≠ DeniedKeyName → field (setDenied loc d) name = field loc name.
Proof.
  unfold DeniedKeyName. intros Hne. unfold field.
  by apply String.eqb_neq in Hne as ->.
Qed.

Lemma assignable_setDenied (loc : Location) (d : option error) (name : string) (v : value) :
  name ≠ DeniedKeyName → assignable (setDenied loc d) name v = assignable loc name v.
Proof.
  unfold DeniedKeyName. intros Hne. unfold assignable, assignField.
  apply String.eqb_neq in Hne as ->.
  destruct (String.eqb name "Rewrite"); [by destruct v|]. simpl.
  destruct (Others loc !! name); [|done]. by destruct (decide _).
Qed.

(** Handed the "Denied" key, the generic merge by itself would clear or
    replace the denial: the removal of the key is what keeps it away. *)
Lemma generic_merge_reaches_denial :
  Denied (mergoMap (mkLocation (Some (NewError "forbidden")) "/" ∅)
            {[ DeniedKeyName := VNil ]}).1 = None
  ∧ Denied (mergoMap (mkLocation (Some (NewError "forbidden")) "/" ∅)
              {[ DeniedKeyName := VError (NewError "spoofed") ]}).1
    = Some (NewError "spoofed").
Proof. split; reflexivity. Qed.

(** C1: the "Denied" entry is moved into the denial field and its key is
    removed before the generic merge runs, so for a merge that goes by
    field name the denial field after the call is the one the extraction
    left: the entry's error when the key was present, the old field when it
    was not.  The only other way the call can end is the panic of the cast,
    before any merge. *)
Theorem denial_set_before_generic_merge
    (merger : StructMerger) (loc : Location) (anns : gmap string value) :
  MergesByName merger →
  let extracted := match anns !! DeniedKeyName with
                   | Some (VError e) => setDenied loc (Some e)
                   | _ => loc
                   end in
  match result (mergeLocationAnnotations loc anns) with
  | Returned (loc', anns') =>
      anns' = delete DeniedKeyName anns ∧ anns' !! DeniedKeyName = None ∧
      loc' = (Map extracted anns').1 ∧
      Denied loc' = Denied extracted ∧
      Denied loc' = match anns !! DeniedKeyName with
                    | Some (VError e) => Some e
                    | _ => Denied loc
                    end
  | Panicked => ∃ v, anns !! DeniedKeyName = Some v ∧ ∀ e, v ≠ VError e
  | Exited => False
  end.
Proof.
  intros Hby extracted. subst extracted.
  destruct (anns !! DeniedKeyName) as [v|] eqn:Hden.
  - destruct v as [| b | n | s | e];
      try (rewrite (mergeLocationAnnotations_panics loc anns _ Hden) by done;
           simpl; eexists; split; [reflexivity | done]).
    rewrite (mergeLocationAnnotations_denied loc anns e Hden). simpl.
    pose proof (merge_keeps merger Hby (setDenied loc (Some e))
                  (delete DeniedKeyName anns) DeniedKeyName
                  (lookup_delete_eq anns DeniedKeyName)) as Hkeep.
    apply Denied_of_field in Hkeep.
    repeat split; [apply lookup_delete_eq | done | done].
  - rewrite (mergeLocationAnnotations_absent loc anns Hden). simpl.
    pose proof (merge_keeps merger Hby loc (delete DeniedKeyName anns) DeniedKeyName
                  (lookup_delete_eq anns DeniedKeyName)) as Hkeep.
    apply Denied_of_field in Hkeep.
    repeat split; [apply lookup_delete_eq | done | done].
Qed.

Lemma denial_set_before_generic_merge_witness :
  let loc := mkLocation None "/" ∅ in
  let anns : gmap string value :=
    {[ DeniedKeyName := VError (NewError "forbidden") ]} in
  MergesByName specMerger ∧
  match result (mergeLocationAnnotations (H := specMerger) loc anns) with
  | Returned (loc', anns') =>
      anns' = delete DeniedKeyName anns ∧ anns' !! DeniedKeyName = None ∧
      loc' = (mergoMap (setDenied loc (Some (NewError "forbidden"))) anns').1 ∧
      Denied loc' = Some (NewError "forbidden") ∧
      Denied loc' = Some (NewError "forbidden")
  | Panicked => ∃ v, anns !! DeniedKeyName = Some v ∧ ∀ e, v ≠ VError e
  | Exited => False
  end.
Proof.
  intros loc anns. split; [exact mergoMap_by_name|].
  exact (denial_set_before_generic_merge specMerger loc anns mergoMap_by_name).
Defined.

(** C4: with "Denied" holding an error and "Rewrite" holding "/x", a merge
    that goes by field name leaves the error in the denial field and "/x"
    in the rewrite field, and the map comes back without its "Denied" key.
    Every other key whose value fits its field overwrites it, fields the
    map does not name stay as they were, and a call that returns has
    removed the "Denied" key whether it was there or not. *)
Theorem mergeLocationAnnotations_denied_and_rewrite
    (merger : StructMerger) (loc : Location) (anns : gmap string value)
    (err : error) :
  MergesByName merger →
  anns !! DeniedKeyName = Some (VError err) →
  anns !! "Rewrite"%string = Some (VString "/x") →
  ∃ log loc',
    mergeLocationAnnotations loc anns
    = (log, Returned (loc', delete DeniedKeyName anns)) ∧
    Denied loc' = Some err ∧
    Rewrite loc' = "/x"%string ∧
    delete DeniedKeyName anns !! DeniedKeyName = None ∧
    (∀ name v, name ≠ DeniedKeyName → anns !! name = Some v →
               assignable loc name v = true → field loc' name = Some v) ∧
    (∀ name, name ≠ DeniedKeyName → anns !! name = None →
             field loc' name = field loc name) ∧
    (∀ loc0 anns0 out,
       result (mergeLocationAnnotations loc0 anns0) = Returned out →
       out.2 = delete DeniedKeyName anns0 ∧ out.2 !! DeniedKeyName = None) ∧
    (∀ loc0 anns0, anns0 !! DeniedKeyName = None →
       ∃ log0 loc0',
         mergeLocationAnnotations loc0 anns0 = (log0, Returned (loc0', anns0))).
Proof.
  intros Hby Hden Hrw.
  rewrite (mergeLocationAnnotations_denied loc anns err Hden).
  set (loc1 := setDenied loc (Some err)). set (anns1 := delete DeniedKeyName anns).
  do 2 eexists. split; [reflexivity|].
  assert (∀ name v, name ≠ DeniedKeyName → anns !! name = Some v →
            assignable loc name v = true → field (Map loc1 anns1).1 name = Some v)
    as Hover.
  { intros name v Hne Hname Hfit. apply (merge_overwrites merger Hby).
    - subst anns1. by rewrite lookup_delete_ne.
    - subst loc1. by rewrite assignable_setDenied. }
  split; [|split; [|split; [|split; [|split; [|split]]]]].
  - pose proof (merge_keeps merger Hby loc1 anns1 DeniedKeyName
                  (lookup_delete_eq anns DeniedKeyName)) as Hkeep.
    by apply Denied_of_field in Hkeep.
  - specialize (Hover "Rewrite"%string (VString "/x")).
    rewrite field_Rewrite in Hover.
    assert (Some (VString (Rewrite (Map loc1 anns1).1)) = Some (VString "/x")) as Heq
      by (by apply Hover).
    by simplify_eq.
  - apply lookup_delete_eq.
  - exact Hover.
  - intros name Hne Hname.
    rewrite (merge_keeps merger Hby loc1 anns1 name).
    + subst loc1. by apply field_setDenied.
    + subst anns1. by rewrite lookup_delete_ne.
  - intros loc0 anns0 out Hout.
    destruct (anns0 !! DeniedKeyName) as [v|] eqn:Hden0.
    + destruct v as [| b | n | s | e];
        try (rewrite (mergeLocationAnnotations_panics loc0 anns0 _ Hden0) in Hout
               by done; done).
      rewrite (mergeLocationAnnotations_denied loc0 anns0 e Hden0) in Hout.
      simpl in Hout. simplify_eq. simpl. split; [done | apply lookup_delete_eq].
    + rewrite (mergeLocationAnnotations_absent loc0 anns0 Hden0) in Hout.
      simpl in Hout. simplify_eq. simpl. split; [done | apply lookup_delete_eq].
  - intros loc0 anns0 Hden0.
    rewrite (mergeLocationAnnotations_absent loc0 anns0 Hden0).
    rewrite (delete_id anns0 DeniedKeyName Hden0). eauto.
Qed.

Lemma mergeLocationAnnotations_denied_and_rewrite_witness :
  let merger := specMerger in
  let loc := mkLocation None "/" {[ "Backend"%string := VString "upstream-default" ]} in
  let err := NewError "forbidden" in
  let anns : gmap string value :=
    <[ "Rewrite"%string := VString "/x" ]> {[ DeniedKeyName := VError err ]} in
  MergesByName merger ∧
  anns !! DeniedKeyName = Some (VError err) ∧
  anns !! "Rewrite"%string = Some (VString "/x") ∧
  ∃ log loc',
    mergeLocationAnnotations loc anns
    = (log, Returned (loc', delete DeniedKeyName anns)) ∧
    Denied loc' = Some err ∧
    Rewrite loc' = "/x"%string ∧
    delete DeniedKeyName anns !! DeniedKeyName = None ∧
    (∀ name v, name ≠ DeniedKeyName → anns !! name = Some v →
               assignable loc name v = true → field loc' name = Some v) ∧
    (∀ name, name ≠ DeniedKeyName → anns !! name = None →
             field loc' name = field loc name) ∧
    (∀ loc0 anns0 out,
       result (mergeLocationAnnotations loc0 anns0) = Returned out →
       out.2 = delete DeniedKeyName anns0 ∧ out.2 !! DeniedKeyName = None) ∧
    (∀ loc0 anns0, anns0 !! DeniedKeyName = None →
       ∃ log0 loc0',
         mergeLocationAnnotations loc0 anns0 = (log0, Returned (loc0', anns0))).
Proof.
  intros merger loc err anns.
  split; [exact mergoMap_by_name|]. split; [reflexivity|]. split; [reflexivity|].
  apply (mergeLocationAnnotations_denied_and_rewrite merger loc anns err).
  - exact mergoMap_by_name.
  - reflexivity.
  - reflexivity.
Defined.

(** ** Which errors are absorbed *)

Lemma IsValidClass_read_error `{AnnotationReader}
    (ing : Ingress) (config : Configuration) (cc : string) (e : error) :
  GetStringAnnotation ingressClassKey ing = (cc, Some e) →
  IsMissingAnnotations e = false →
  IsValidClass ing config =
  ([Logged Warning "unexpected error reading ingress annotation: %v" e],
   Returned ((String.eqb cc "" && String.eqb (IngressClass config) "")
             || String.eqb (IngressClass config) (DefaultIngressClass config)
             || String.eqb cc (IngressClass config))).
Proof.
  intros Hread Hmiss. unfold IsValidClass. rewrite Hread, Hmiss. simpl.
  unfold Warningf, emit. run_step.
  by repeat (case_match; simpl in *; try done).
Qed.

Lemma isAssignedToSelf_exits_iff `{PodIdentity} (ing : Ingress) (client : Clientset) :
  result (isAssignedToSelf ing client) = Exited ↔
  ∃ annotations err,
    Annotations ing = Some annotations ∧ GetPodDetails client = inr err.
Proof.
  destruct (Annotations ing) as [annotations|] eqn:Hann.
  - destruct (GetPodDetails client) as [podInfo|err] eqn:Hpod.
    + rewrite (isAssignedToSelf_found _ _ _ _ Hann Hpod). simpl.
      split; [done | by intros (? & ? & _ & ?)].
    + rewrite (isAssignedToSelf_lookup_failed _ _ _ _ Hann Hpod). simpl.
      split; [eauto | done].
  - rewrite (isAssignedToSelf_nil _ _ Hann). simpl.
    split; [done | by intros (? & ? & ? & _)].
Qed.

Lemma isAssignedToSelf_no_panic `{PodIdentity} (ing : Ingress) (client : Clientset) :
  result (isAssignedToSelf ing client) ≠ Panicked.
Proof.
  destruct (Annotations ing) as [annotations|] eqn:Hann.
  - destruct (GetPodDetails client) as [podInfo|err] eqn:Hpod.
    + by rewrite (isAssignedToSelf_found _ _ _ _ Hann Hpod).
    + by rewrite (isAssignedToSelf_lookup_failed _ _ _ _ Hann Hpod).
  - by rewrite (isAssignedToSelf_nil _ _ Hann).
Qed.

Lemma mergeLocationAnnotations_panics_iff `{StructMerger}
    (loc : Location) (anns : gmap string value) :
  result (mergeLocationAnnotations loc anns) = Panicked ↔
  ∃ v, anns !! DeniedKeyName = Some v ∧ ∀ e, v ≠ VError e.
Proof.
  destruct (anns !! DeniedKeyName) as [v|] eqn:Hden.
  - destruct v as [| b | n | s | e];
      try (rewrite (mergeLocationAnnotations_panics loc anns _ Hden) by done;
           simpl; split; [intros _; eexists; by split | done]).
    rewrite (mergeLocationAnnotations_denied loc anns e Hden). simpl.
    split; [done|]. intros (v & Hv & Hnot). simplify_eq. by destruct (Hnot e).
  - rewrite (mergeLocationAnnotations_absent loc anns Hden). simpl.
    split; [done | by intros (? & ? & _)].
Qed.

Lemma mergeLocationAnnotations_no_exit `{StructMerger}
    (loc : Location) (anns : gmap string value) :
  result (mergeLocationAnnotations loc anns) ≠ Exited.
Proof.
  destruct (anns !! DeniedKeyName) as [v|] eqn:Hden.
  - destruct v as [| b | n | s | e];
      try (by rewrite (mergeLocationAnnotations_panics loc anns _ Hden) by done).
    by rewrite (mergeLocationAnnotations_denied loc anns e Hden).
  - by rewrite (mergeLocationAnnotations_absent loc anns Hden).
Qed.

(** C8: a recoverable error is absorbed and logged where it is detected,
    and the call goes on: a read error other than "missing" is logged as
    a warning and the class is decided with the value read, the empty
    string; a failure of the generic merge is logged and the merge call
    returns.  An absent annotation is no error and is not logged.  A failed
    identity lookup is the one error that is not absorbed: it is logged as
    fatal and the process exits instead of the call returning.  The
    extracted map is as the annotation stage makes it, its "Denied" entry,
    if any, an error. *)
Theorem reported_errors_absorbed_except_lookup :
  (∀ (reader : AnnotationReader) ing config e,
     GetStringAnnotation ingressClassKey ing = (EmptyString, Some e) →
     IsMissingAnnotations e = false →
     IsValidClass ing config =
     ([Logged Warning "unexpected error reading ingress annotation: %v" e],
      Returned (String.eqb (IngressClass config) ""
                || String.eqb (IngressClass config) (DefaultIngressClass config)))) ∧
  (∀ (reader : AnnotationReader) ing config cc e,
     GetStringAnnotation ingressClassKey ing = (cc, Some e) →
     IsValidClass ing config =
     (if IsMissingAnnotations e then []
      else [Logged Warning "unexpected error reading ingress annotation: %v" e],
      Returned ((String.eqb cc "" && String.eqb (IngressClass config) "")
                || String.eqb (IngressClass config) (DefaultIngressClass config)
                || String.eqb cc (IngressClass config)))) ∧
  (∀ (reader : AnnotationReader) ing config,
     ∃ b, result (IsValidClass ing config) = Returned b) ∧
  (∀ (merger : StructMerger) loc anns,
     let extracted := match anns !! DeniedKeyName with
                      | Some (VError d) => setDenied loc (Some d)
                      | _ => loc
                      end in
     (∀ v, anns !! DeniedKeyName = Some v → ∃ d, v = VError d) →
     mergeLocationAnnotations loc anns =
     (match (Map extracted (delete DeniedKeyName anns)).2 with
      | Some e =>
          [Logged Error
             "unexpected error merging extracted annotations in location type: %v" e]
      | None => []
      end,
      Returned ((Map extracted (delete DeniedKeyName anns)).1,
                delete DeniedKeyName anns))) ∧
  (∀ (identity : PodIdentity) ing client annotations err,
     Annotations ing = Some annotations →
     GetPodDetails client = inr err →
     isAssignedToSelf ing client =
     ([PodDetailsRequested;
       Logged Fatal "unexpected error obtaining pod information: %v" err],
      Exited)) ∧
  (∀ (identity : PodIdentity) ing client,
     (result (isAssignedToSelf ing client) = Exited ↔
        ∃ annotations err,
          Annotations ing = Some annotations ∧ GetPodDetails client = inr err) ∧
     result (isAssignedToSelf ing client) ≠ Panicked) ∧
  (∀ (merger : StructMerger) loc anns,
     result (mergeLocationAnnotations loc anns) ≠ Exited).
Proof.
  split; [|split; [|split; [|split; [|split; [|split]]]]].
  - intros reader ing config e Hread Hmiss.
    rewrite (IsValidClass_read_error ing config _ e Hread Hmiss).
    do 2 f_equal. destruct (IngressClass config) as [|c current]; simpl; [done|].
    apply orb_false_r.
  - intros reader ing config cc e Hread.
    destruct (IsMissingAnnotations e) eqn:Hmiss.
    + unfold IsValidClass. rewrite Hread, Hmiss. simpl. run_step.
      by repeat (case_match; simpl in *; try done).
    + by apply IsValidClass_read_error.
  - intros reader ing config. rewrite IsValidClass_decision. eauto.
  - intros merger loc anns extracted Htyped. subst extracted.
    destruct (anns !! DeniedKeyName) as [v|] eqn:Hden.
    + destruct (Htyped v eq_refl) as [d ->].
      by rewrite (mergeLocationAnnotations_denied loc anns d Hden).
    + by rewrite (mergeLocationAnnotations_absent loc anns Hden).
  - intros identity ing client annotations err. apply isAssignedToSelf_lookup_failed.
  - intros identity ing client.
    split; [apply isAssignedToSelf_exits_iff | apply isAssignedToSelf_no_panic].
  - intros merger loc anns. apply mergeLocationAnnotations_no_exit.
Qed.

Lemma reported_errors_absorbed_except_lookup_witness :
  IsValidClass (H := brokenReader "kubernetes.io/ingress.class")
    (mkIngress None) (mkConfiguration "nginx" "")
  = ([Logged Warning "unexpected error reading ingress annotation: %v"
        (NewError "malformed")], Returned false)
  ∧ mergeLocationAnnotations (H := specMerger) (mkLocation None "/" ∅)
      (<[ "Rewrite"%string := VInt 1 ]>
         {[ DeniedKeyName := VError (NewError "forbidden") ]})
    = ([Logged Error
          "unexpected error merging extracted annotations in location type: %v"
          (NewError "type mismatch")],
       Returned (mkLocation (Some (NewError "forbidden")) "/" ∅,
                 delete DeniedKeyName
                   (<[ "Rewrite"%string := VInt 1 ]>
                      {[ DeniedKeyName := VError (NewError "forbidden") ]})))
  ∧ isAssignedToSelf (H := fixedIdentity (inr (NewError "no pod")))
      (mkIngress (Some ∅)) tt
    = ([PodDetailsRequested;
        Logged Fatal "unexpected error obtaining pod information: %v"
          (NewError "no pod")], Exited).
Proof.
  destruct reported_errors_absorbed_except_lookup
    as (Hread & _ & _ & Hmerge & Hlookup & _).
  split; [|split].
  - apply (Hread (brokenReader "kubernetes.io/ingress.class") (mkIngress None)
             (mkConfiguration "nginx" "") (NewError "malformed"));
      reflexivity.
  - refine (Hmerge specMerger (mkLocation None "/" ∅)
              (<[ "Rewrite"%string := VInt 1 ]>
                 {[ DeniedKeyName := VError (NewError "forbidden") ]}) _).
    intros v Hv. exists (NewError "forbidden").
    apply (inj Some). rewrite <- Hv. reflexivity.
  - apply (Hlookup (fixedIdentity (inr (NewError "no pod"))) (mkIngress (Some ∅)) tt
             ∅ (NewError "no pod")); reflexivity.
Defined.

(** * Further properties of the code *)

(** ** Labels *)

Lemma Split_inj (a b : string) (sep : ascii) : Split a sep = Split b sep → a = b.
Proof. intros Heq. by rewrite <- (Join_Split a sep), Heq, Join_Split. Qed.

Lemma Split_app (a b : string) (sep : ascii) :
  Split (String.append a (String sep b)) sep = Split a sep ++ Split b sep.
Proof.
  induction a as [|c a IH].
  - change (Split (String sep b) sep = [EmptyString] ++ Split b sep).
    simpl. by rewrite Ascii.eqb_refl.
  - change (Split (String c (String.append a (String sep b))) sep
            = Split (String c a) sep ++ Split b sep).
    simpl. rewrite IH. destruct (Ascii.eqb c sep); [done|].
    pose proof (Split_nonempty a sep). by destruct (Split a sep).
Qed.

(** A piece of a split holds no separator: split again, it is one piece. *)
Lemma Split_piece (s x : string) (sep : ascii) :
  x ∈ Split s sep → Split x sep = [x].
Proof.
  revert x. induction s as [|c s IH]; intros x; simpl.
  - intros Hx. apply list_elem_of_singleton in Hx as ->. done.
  - destruct (Ascii.eqb c sep) eqn:Hc.
    + intros Hx. apply elem_of_cons in Hx as [->|Hx]; [done | by apply IH].
    + pose proof (Split_nonempty s sep).
      destruct (Split s sep) as [|piece pieces] eqn:E; [done|].
      intros Hx. apply elem_of_cons in Hx as [->|Hx].
      * simpl. rewrite Hc. rewrite (IH piece); [done | left].
      * apply IH. by right.
Qed.

Lemma matchParts_same (front parts : list string) :
  matchParts (length front) parts (front ++ parts) = Some true.
Proof.
  apply matchParts_true. intros j p Hj. right.
  by rewrite lookup_app_r, Nat.add_comm, Nat.add_sub by lia.
Qed.

Lemma matchHostnames_unfold (pattern host : string) :
  matchHostnames pattern host =
  if (len (TrimSuffix pattern ".") =? 0) || (len (TrimSuffix host ".") =? 0)
  then Some false
  else if negb (length (Split (TrimSuffix pattern ".") dot)
                =? length (Split (TrimSuffix host ".") dot))
       then Some false
       else matchParts 0 (Split (TrimSuffix pattern ".") dot)
              (Split (TrimSuffix host ".") dot).
Proof. reflexivity. Qed.

Lemma len_nonzero (s : string) : s ≠ EmptyString → (len s =? 0) = false.
Proof. intros Hs. apply Nat.eqb_neq. by destruct s. Qed.

(** X1: Two names that differ at most by one trailing dot match, whenever
    there is something left of them; so every such name matches itself. *)
Theorem matchHostnames_same_name (pattern host : string) :
  TrimSuffix pattern "." = TrimSuffix host "." →
  TrimSuffix host "." ≠ EmptyString →
  matchHostnames pattern host = Some true.
Proof.
  intros Hsame Hne. rewrite matchHostnames_unfold, Hsame.
  rewrite (len_nonzero _ Hne), Nat.eqb_refl. simpl.
  apply (matchParts_same []).
Qed.

Lemma matchHostnames_same_name_witness :
  TrimSuffix "www.example.com." "." = TrimSuffix "www.example.com" "." ∧
  TrimSuffix "www.example.com" "." ≠ EmptyString ∧
  matchHostnames "www.example.com." "www.example.com" = Some true.
Proof.
  split; [reflexivity|]. split; [discriminate|].
  apply (matchHostnames_same_name "www.example.com." "www.example.com");
    [reflexivity | discriminate].
Defined.

(** X2: A pattern whose first label is not "*" matches a host exactly when the
    two are the same non-empty string once a trailing dot is dropped: a
    "*" anywhere else is an ordinary label. *)
Theorem matchHostnames_exact_without_wildcard (pattern host : string) :
  head (Split (TrimSuffix pattern ".") dot) ≠ Some "*"%string →
  (matchHostnames pattern host = Some true ↔
     TrimSuffix pattern "." = TrimSuffix host "." ∧
     TrimSuffix host "." ≠ EmptyString).
Proof.
  intros Hhead. split.
  - rewrite matchHostnames_unfold.
    destruct (len (TrimSuffix pattern ".") =? 0) eqn:Hp; [done|].
    destruct (len (TrimSuffix host ".") =? 0) eqn:Hh; [done|]. simpl.
    destruct (length _ =? length _) eqn:Hlen; [|done]. simpl.
    apply Nat.eqb_eq in Hlen. intros Hmatch.
    split; [|intros E; apply len_zero in E; congruence].
    apply (Split_inj _ _ dot). apply list_eq_same_length with
      (length (Split (TrimSuffix host ".") dot)); [done | done |].
    intros i x y _ Hx Hy.
    destruct (proj1 (matchParts_true 0 _ _) Hmatch i x Hx) as [[Hi ->]|Hq].
    + simpl in Hi. subst i. destruct Hhead. by rewrite head_lookup.
    + simpl in Hq. congruence.
  - intros [Hsame Hne]. by apply matchHostnames_same_name.
Qed.

Lemma matchHostnames_exact_without_wildcard_witness :
  head (Split (TrimSuffix "a.*.c" ".") dot) ≠ Some "*"%string ∧
  (matchHostnames "a.*.c" "a.b.c" = Some true ↔
     TrimSuffix "a.*.c" "." = TrimSuffix "a.b.c" "." ∧
     TrimSuffix "a.b.c" "." ≠ EmptyString).
Proof.
  split; [discriminate|].
  apply (matchHostnames_exact_without_wildcard "a.*.c" "a.b.c"). discriminate.
Defined.

Lemma append_keeps_ending (x rest : string) :
  rest ≠ EmptyString → (∀ front, rest ≠ String.append front ".") →
  ∀ front, String.append x rest ≠ String.append front ".".
Proof.
  intros Hne Hend. induction x as [|c x IH]; intros front; [apply Hend|].
  change (String c (String.append x rest) ≠ String.append front ".").
  destruct front as [|c' front].
  - change (String c (String.append x rest) ≠ String "." EmptyString).
    intros [= _ Hnil]. destruct x; [done | discriminate Hnil].
  - change (String c (String.append x rest) ≠ String c' (String.append front ".")).
    intros [= _ Htail]. by apply (IH front).
Qed.

Lemma append_nonempty (x : string) (c : ascii) (rest : string) :
  String.append x (String c rest) ≠ EmptyString.
Proof. by destruct x. Qed.

(** X3: A pattern "*.rest" matches exactly the hosts that put one label in
    front of ".rest": the wildcard stands for a single label, which may be
    empty but holds no dot, and never for none or for several. *)
Theorem matchHostnames_wildcard_one_label (rest host : string) :
  rest ≠ EmptyString →
  (∀ front, rest ≠ String.append front ".") →
  (matchHostnames (String.append "*." rest) host = Some true ↔
     ∃ label, Split label dot = [label] ∧
              TrimSuffix host "." = String.append label (String.append "." rest)).
Proof.
  intros Hne Hend.
  change (String.append "*." rest) with (String.append "*" (String dot rest)).
  assert (TrimSuffix (String.append "*" (String dot rest)) "."
          = String.append "*" (String dot rest)) as Htrim.
  { apply TrimSuffix_absent.
    change (String.append "*" (String dot rest)) with (String.append "*." rest).
    by apply append_keeps_ending. }
  rewrite matchHostnames_unfold, Htrim, Split_app.
  rewrite (len_nonzero _ (append_nonempty "*" dot rest)).
  change (Split "*" dot) with ["*"%string]. simpl.
  set (h := TrimSuffix host "."). set (R := Split rest dot). split.
  - destruct (len h =? 0) eqn:Hh; [done|].
    destruct (Split h dot) as [|l0 hp] eqn:Hsplit; [done|]. simpl.
    destruct (length R =? length hp) eqn:Hlen; [|done]. simpl.
    apply Nat.eqb_eq in Hlen. intros Hmatch. exists l0.
    assert (Split l0 dot = [l0]) as Hl0.
    { apply (Split_piece h). rewrite Hsplit. left. }
    split; [done|]. apply (Split_inj _ _ dot).
    change (String.append "." rest) with (String dot rest).
    rewrite Split_app, Hl0, Hsplit. simpl. f_equal. fold R.
    symmetry. apply list_eq_same_length with (length R); [done | lia |].
    intros i x y _ Hx Hy.
    destruct (proj1 (matchParts_true 1 R (l0 :: hp)) Hmatch i x Hx) as [[? _]|Hq];
      [lia|]. simpl in Hq. congruence.
  - intros (label & Hlabel & Hhost).
    change (String.append "." rest) with (String dot rest) in Hhost.
    rewrite Hhost, (len_nonzero _ (append_nonempty label dot rest)).
    rewrite Split_app, Hlabel. fold R. simpl. rewrite Nat.eqb_refl. simpl.
    apply (matchParts_same [label] R).
Qed.

Lemma matchHostnames_wildcard_one_label_witness :
  "example.com"%string ≠ EmptyString ∧
  (∀ front, "example.com"%string ≠ String.append front ".") ∧
  (matchHostnames (String.append "*." "example.com") ".example.com" = Some true ↔
     ∃ label, Split label dot = [label] ∧
              TrimSuffix ".example.com" "."
              = String.append label (String.append "." "example.com")).
Proof.
  assert (∀ front, "example.com"%string ≠ String.append front ".") as Hend.
  { intros front Heq.
    assert (HasSuffix "example.com" "." = true) as Hsuffix
      by (apply HasSuffix_true; eauto).
    discriminate Hsuffix. }
  split; [discriminate|]. split; [exact Hend|].
  apply (matchHostnames_wildcard_one_label "example.com" ".example.com");
    [discriminate | exact Hend].
Defined.

(** ** Certificates *)

Lemma anyMatches_false (cns : list string) (host : string) :
  anyMatches cns host ≠ Some true → anyMatches cns host = Some false.
Proof.
  intros Hno. destruct (anyMatches_total cns host) as [[] Hb]; [done | exact Hb].
Qed.

Lemma anyMatches_same_members (cns1 cns2 : list string) (host : string) :
  (∀ cn, cn ∈ cns1 ↔ cn ∈ cns2) → anyMatches cns1 host = anyMatches cns2 host.
Proof.
  intros Hsame.
  destruct (anyMatches_total cns1 host) as [[] H1]; rewrite H1; symmetry.
  - apply anyMatches_true. apply anyMatches_true in H1 as (cn & Hin & Hcn).
    exists cn. split; [by apply Hsame | done].
  - apply anyMatches_false. intros H2.
    apply anyMatches_true in H2 as (cn & Hin & Hcn).
    assert (anyMatches cns1 host = Some true) as H1'
      by (apply anyMatches_true; exists cn; split; [by apply Hsame | done]).
    congruence.
Qed.

(** X4: The names of two certificates put together validate a host exactly
    when one of the two certificates does: adding names never takes a
    valid host away. *)
Theorem isHostValid_names_appended (host : string) (cns1 cns2 : list string) :
  isHostValid host (Some (mkSSLCert (cns1 ++ cns2))) = Some true ↔
  isHostValid host (Some (mkSSLCert cns1)) = Some true
  ∨ isHostValid host (Some (mkSSLCert cns2)) = Some true.
Proof.
  simpl. rewrite !anyMatches_true. split.
  - intros (cn & Hin & Hcn). apply elem_of_app in Hin as [Hin|Hin]; eauto.
  - intros [(cn & Hin & Hcn)|(cn & Hin & Hcn)]; exists cn;
      (split; [apply elem_of_app; eauto | done]).
Qed.

(** X5: The answer does not depend on the order of the certificate's names,
    nor on a name being listed more than once. *)
Theorem isHostValid_order_free (host : string) (cert1 cert2 : SSLCert) :
  (∀ cn, cn ∈ CN cert1 ↔ cn ∈ CN cert2) →
  isHostValid host (Some cert1) = isHostValid host (Some cert2).
Proof. intros Hsame. simpl. by apply anyMatches_same_members. Qed.

Lemma isHostValid_order_free_witness :
  (∀ cn, cn ∈ CN (mkSSLCert ["*.example.com"; "example.com"]%string)
         ↔ cn ∈ CN (mkSSLCert ["example.com"; "*.example.com"; "example.com"]%string)) ∧
  isHostValid "example.com" (Some (mkSSLCert ["*.example.com"; "example.com"]%string))
  = isHostValid "example.com"
      (Some (mkSSLCert ["example.com"; "*.example.com"; "example.com"]%string)).
Proof.
  assert (∀ cn, cn ∈ CN (mkSSLCert ["*.example.com"; "example.com"]%string)
                ↔ cn ∈ CN (mkSSLCert ["example.com"; "*.example.com"; "example.com"]%string))
    as Hsame by (intros cn; simpl; rewrite !elem_of_cons, elem_of_nil; tauto).
  split; [exact Hsame|].
  exact (isHostValid_order_free "example.com" _ _ Hsame).
Defined.

(** X6: A certificate is valid for each of its own names, a wildcard name
    included, unless the name is empty or a lone dot. *)
Theorem isHostValid_own_name (cert : SSLCert) (cn : string) :
  cn ∈ CN cert →
  TrimSuffix cn "." ≠ EmptyString →
  isHostValid cn (Some cert) = Some true.
Proof.
  intros Hin Hne. simpl. apply anyMatches_true. exists cn.
  split; [done|]. by apply matchHostnames_same_name.
Qed.

Lemma isHostValid_own_name_witness :
  "*.example.com"%string ∈ CN (mkSSLCert ["example.org"; "*.example.com"]%string) ∧
  TrimSuffix "*.example.com" "." ≠ EmptyString ∧
  isHostValid "*.example.com"
    (Some (mkSSLCert ["example.org"; "*.example.com"]%string)) = Some true.
Proof.
  assert ("*.example.com"%string ∈ CN (mkSSLCert ["example.org"; "*.example.com"]%string))
    as Hin by (right; left).
  split; [exact Hin|]. split; [discriminate|].
  apply (isHostValid_own_name _ _ Hin). discriminate.
Defined.

(** X7: A host that is empty, or empty once its trailing dot is dropped, is
    valid for no certificate, whatever names the certificate lists. *)
Theorem isHostValid_empty_host (host : string) (cert : option SSLCert) :
  TrimSuffix host "." = EmptyString → isHostValid host cert = Some false.
Proof.
  intros Hempty. destruct cert as [c|]; [|done]. simpl.
  apply anyMatches_false. intros Hyes.
  apply anyMatches_true in Hyes as (cn & _ & Hcn).
  rewrite matchHostnames_unfold, Hempty in Hcn. simpl in Hcn.
  rewrite orb_true_r in Hcn. discriminate Hcn.
Qed.

Lemma isHostValid_empty_host_witness :
  TrimSuffix "." "." = EmptyString ∧
  isHostValid "." (Some (mkSSLCert ["*"; "."; ""]%string)) = Some false.
Proof.
  split; [reflexivity|].
  apply (isHostValid_empty_host "." (Some (mkSSLCert ["*"; "."; ""]%string))).
  reflexivity.
Defined.

(** ** Class selection, again *)

(** X8: The test "both classes are empty" adds nothing: a resource is accepted
    exactly when the configured class is the default class or equals the
    class read from the resource. *)
Theorem IsValidClass_two_tests
    (reader : AnnotationReader) (ing : Ingress) (config : Configuration) :
  ∃ b, result (IsValidClass ing config) = Returned b ∧
       (b = true ↔
          IngressClass config = DefaultIngressClass config
          ∨ (GetStringAnnotation ingressClassKey ing).1 = IngressClass config).
Proof.
  eexists. split; [apply IsValidClass_decision|].
  rewrite three_way_test. split; [|tauto].
  intros [[-> ->]|[?|?]]; tauto.
Qed.

(** ** Ownership, again *)

Lemma append_assoc (a b c : string) :
  String.append (String.append a b) c = String.append a (String.append b c).
Proof.
  induction a as [|x a IH]; [done|].
  change (String x (String.append (String.append a b) c)
          = String x (String.append a (String.append b c))).
  by rewrite IH.
Qed.

Lemma HasPrefix_trans (s middle short : string) :
  HasPrefix s middle = true → HasPrefix middle short = true →
  HasPrefix s short = true.
Proof.
  rewrite !HasPrefix_true. intros [r1 ->] [r2 ->].
  exists (String.append r2 r1). apply append_assoc.
Qed.

Lemma isAssignedToSelf_true `{PodIdentity} (ing : Ingress) (client : Clientset)
    (podInfo : PodInfo) :
  GetPodDetails client = inl podInfo →
  (result (isAssignedToSelf ing client) = Returned true ↔
     ∃ annotations, Annotations ing = Some annotations ∧
       HasPrefix (index annotations ingressLoadbalancerAnno) (Name podInfo) = true).
Proof.
  intros Hpod. destruct (Annotations ing) as [annotations|] eqn:Hann.
  - rewrite (isAssignedToSelf_found _ _ _ _ Hann Hpod). simpl. split.
    + intros [= Hb]. eauto.
    + intros (m & [= <-] & ->). done.
  - rewrite (isAssignedToSelf_nil _ _ Hann). simpl.
    split; [done | by intros (? & ? & _)].
Qed.

(** X9: The identity lookup is made exactly when the annotation map is not
    nil, then once, and before anything is logged. *)
Theorem isAssignedToSelf_looks_up_once
    (identity : PodIdentity) (ing : Ingress) (client : Clientset) :
  match Annotations ing with
  | None => trace (isAssignedToSelf ing client) = []
  | Some _ =>
      ∃ later, trace (isAssignedToSelf ing client) = PodDetailsRequested :: later
               ∧ PodDetailsRequested ∉ later
  end.
Proof.
  destruct (Annotations ing) as [annotations|] eqn:Hann.
  - destruct (GetPodDetails client) as [podInfo|err] eqn:Hpod.
    + rewrite (isAssignedToSelf_found _ _ _ _ Hann Hpod). simpl.
      eexists. split; [done | apply not_elem_of_nil].
    + rewrite (isAssignedToSelf_lookup_failed _ _ _ _ Hann Hpod). simpl.
      eexists. split; [done|]. intros Hin.
      apply elem_of_cons in Hin as [?|Hin]; [done | by apply elem_of_nil in Hin].
  - by rewrite (isAssignedToSelf_nil _ _ Hann).
Qed.

(** X10: Ownership goes by prefix, so it is not exclusive: a resource assigned
    to a replica is also assigned to every replica whose name is a prefix
    of that replica's name. *)
Theorem isAssignedToSelf_shared_with_prefix
    (identity1 identity2 : PodIdentity) (ing : Ingress)
    (client1 : @Clientset identity1) (client2 : @Clientset identity2)
    (pod1 pod2 : PodInfo) :
  @GetPodDetails identity1 client1 = inl pod1 →
  @GetPodDetails identity2 client2 = inl pod2 →
  HasPrefix (Name pod1) (Name pod2) = true →
  result (@isAssignedToSelf identity1 ing client1) = Returned true →
  result (@isAssignedToSelf identity2 ing client2) = Returned true.
Proof.
  intros Hpod1 Hpod2 Hprefix Hfirst.
  apply (isAssignedToSelf_true _ _ _ Hpod1) in Hfirst as (m & Hann & Hm).
  apply (isAssignedToSelf_true _ _ _ Hpod2). exists m. split; [done|].
  by eapply HasPrefix_trans.
Qed.

Lemma isAssignedToSelf_shared_with_prefix_witness :
  let ing := mkIngress (Some {[ ingressLoadbalancerAnno := "ingress-10-lb"%string ]}) in
  let identity1 := fixedIdentity (inl (mkPodInfo "ingress-10")) in
  let identity2 := fixedIdentity (inl (mkPodInfo "ingress-1")) in
  HasPrefix "ingress-10" "ingress-1" = true ∧
  result (@isAssignedToSelf identity1 ing tt) = Returned true ∧
  result (@isAssignedToSelf identity2 ing tt) = Returned true.
Proof.
  intros ing identity1 identity2.
  split; [reflexivity|]. split; [reflexivity|].
  apply (isAssignedToSelf_shared_with_prefix identity1 identity2 ing tt tt
           (mkPodInfo "ingress-10") (mkPodInfo "ingress-1")); reflexivity.
Defined.

(** X11: A replica whose name is empty takes every resource that has an
    annotation map, whatever the map holds. *)
Theorem isAssignedToSelf_empty_name
    (identity : PodIdentity) (ing : Ingress) (client : Clientset)
    (annotations : gmap string string) (podInfo : PodInfo) :
  Annotations ing = Some annotations →
  GetPodDetails client = inl podInfo →
  Name podInfo = EmptyString →
  result (isAssignedToSelf ing client) = Returned true.
Proof.
  intros Hann Hpod Hname. apply (isAssignedToSelf_true _ _ _ Hpod).
  exists annotations. split; [done|]. rewrite Hname.
  apply HasPrefix_true. by eexists.
Qed.

Lemma isAssignedToSelf_empty_name_witness :
  result (isAssignedToSelf (H := fixedIdentity (inl (mkPodInfo "")))
            (mkIngress (Some {[ ingressLoadbalancerAnno := "ingress-7"%string ]}))
            tt) = Returned true.
Proof.
  apply (isAssignedToSelf_empty_name (fixedIdentity (inl (mkPodInfo "")))
           (mkIngress (Some {[ ingressLoadbalancerAnno := "ingress-7"%string ]}))
           tt {[ ingressLoadbalancerAnno := "ingress-7"%string ]} (mkPodInfo ""));
    reflexivity.
Defined.

(** ** Merging, again *)

Lemma mergeLocationAnnotations_returned `{StructMerger}
    (loc : Location) (anns : gmap string value) out :
  result (mergeLocationAnnotations loc anns) = Returned out →
  out.2 = delete DeniedKeyName anns.
Proof.
  destruct (anns !! DeniedKeyName) as [v|] eqn:Hden.
  - destruct v as [| b | n | s | e];
      try (by rewrite (mergeLocationAnnotations_panics loc anns _ Hden) by done).
    rewrite (mergeLocationAnnotations_denied loc anns e Hden). simpl.
    by intros [= <-].
  - rewrite (mergeLocationAnnotations_absent loc anns Hden). simpl.
    by intros [= <-].
Qed.

(** X12: What a call hands back can be merged again: the map no longer holds
    the "Denied" key, so the second call cannot panic and leaves the map
    as it is. *)
Theorem mergeLocationAnnotations_again_returns
    (merger : StructMerger) (loc loc1 : Location) (anns anns1 : gmap string value) :
  result (mergeLocationAnnotations loc anns) = Returned (loc1, anns1) →
  ∃ log loc2,
    mergeLocationAnnotations loc1 anns1 = (log, Returned (loc2, anns1)).
Proof.
  intros Hfirst. apply mergeLocationAnnotations_returned in Hfirst as Hmap.
  simpl in Hmap. subst anns1.
  rewrite (mergeLocationAnnotations_absent loc1 _ (lookup_delete_eq anns DeniedKeyName)).
  rewrite (delete_id (delete DeniedKeyName anns) DeniedKeyName)
    by apply lookup_delete_eq.
  eauto.
Qed.

Lemma mergeLocationAnnotations_again_returns_witness :
  let loc := mkLocation None "/" ∅ in
  let anns : gmap string value := {[ DeniedKeyName := VError (NewError "forbidden") ]} in
  let loc1 := mkLocation (Some (NewError "forbidden")) "/" ∅ in
  let anns1 : gmap string value := delete DeniedKeyName anns in
  result (mergeLocationAnnotations (H := specMerger) loc anns) = Returned (loc1, anns1) ∧
  ∃ log loc2,
    mergeLocationAnnotations (H := specMerger) loc1 anns1
    = (log, Returned (loc2, anns1)).
Proof.
  intros loc anns loc1 anns1. split; [reflexivity|].
  apply (mergeLocationAnnotations_again_returns specMerger loc loc1 anns anns1).
  reflexivity.
Defined.

(** X13: For a merge that goes by field name, the denial is sticky: merging
    again what a call handed back leaves the denial field as the first
    call set it. *)
Theorem mergeLocationAnnotations_again_keeps_denial
    (merger : StructMerger) (loc loc1 loc2 : Location)
    (anns anns1 anns2 : gmap string value) :
  MergesByName merger →
  result (mergeLocationAnnotations loc anns) = Returned (loc1, anns1) →
  result (mergeLocationAnnotations loc1 anns1) = Returned (loc2, anns2) →
  Denied loc2 = Denied loc1.
Proof.
  intros Hby Hfirst Hsecond.
  apply mergeLocationAnnotations_returned in Hfirst as Hmap.
  simpl in Hmap. subst anns1.
  rewrite (mergeLocationAnnotations_absent loc1 _ (lookup_delete_eq anns DeniedKeyName))
    in Hsecond.
  simpl in Hsecond. injection Hsecond as <- _.
  apply Denied_of_field. apply (merge_keeps merger Hby). apply lookup_delete_eq.
Qed.

Lemma mergeLocationAnnotations_again_keeps_denial_witness :
  let loc := mkLocation None "/" ∅ in
  let anns : gmap string value :=
    <[ "Rewrite"%string := VString "/x" ]>
      {[ DeniedKeyName := VError (NewError "forbidden") ]} in
  let loc1 := mkLocation (Some (NewError "forbidden")) "/x" ∅ in
  let anns1 : gmap string value := delete DeniedKeyName anns in
  MergesByName specMerger ∧
  result (mergeLocationAnnotations (H := specMerger) loc anns) = Returned (loc1, anns1) ∧
  result (mergeLocationAnnotations (H := specMerger) loc1 anns1) = Returned (loc1, anns1) ∧
  Denied loc1 = Denied loc1.
Proof.
  intros loc anns loc1 anns1.
  split; [exact mergoMap_by_name|]. split; [reflexivity|]. split; [reflexivity|].
  apply (mergeLocationAnnotations_again_keeps_denial specMerger loc loc1 loc1
           anns anns1 anns1 mergoMap_by_name); reflexivity.
Defined.
